(** * Meelo matcher: the HTTP client of [matcher/api.py]

    A shallow embedding of class [API]: its constructor, the two transport
    helpers [_get] and [_post], and the four public operations.  Python
    exceptions are an error type, the process environment is a finite map,
    and everything the client touches outside itself (the network, the
    local files, the log) is an explicit world threaded through a small
    state-and-error monad together with the client object [self]. *)

From Stdlib Require Import ZArith String Ascii List DecimalString.
From Stdlib Require Import DecimalPos DecimalZ.
From stdpp Require Import base option strings gmap.
Import ListNotations.

Set Warnings "-register-all".

Local Open Scope string_scope.
Local Open Scope Z_scope.

(** ** Values *)

(** What [json.loads] builds and what [json=] takes: Python's [None],
    [bool], [int], [str], [list] and [dict].  A [dict] is kept as its
    items in insertion order; [json_get] reads a key. *)
Inductive json : Type :=
  | JNull
  | JBool (b : bool)
  | JInt (n : Z)
  | JStr (s : string)
  | JList (l : list json)
  | JDict (d : list (string * json)).

(** The exceptions this module can raise or let through.  [Exception] is
    the generic one the module raises itself, with its single argument. *)
Inductive exn : Type :=
  | Exception (arg : string)
  | OSError (path : string)
  | ConnectionError
  | JSONDecodeError
  | KeyError (key : string)
  | TypeError
  | IndexError
  | ValidationError.

Definition result (A : Type) : Type := exn + A.

(** ** Strings *)

(** [len(s) != 0], also the truth value of a [str]. *)
Definition str_truthy (s : string) : bool :=
  match s with
  | EmptyString => false
  | String _ _ => true
  end.

(** The truth value of a length: [len(x)] used as a condition. *)
Definition nonzero (n : nat) : bool := negb (Nat.eqb n 0).

(** [s.split(sep)] for a one-character separator: the pieces between the
    occurrences of [sep], empty pieces included. *)
Fixpoint split (sep : ascii) (s : string) : list string :=
  match s with
  | EmptyString => [EmptyString]
  | String c s' =>
      if Ascii.eqb c sep then EmptyString :: split sep s'
      else match split sep s' with
           | [] => [String c EmptyString]
           | piece :: pieces => String c piece :: pieces
           end
  end.

(** [l[0]]. *)
Definition index0 {A : Type} (l : list A) : result A :=
  match l with
  | [] => inl IndexError
  | x :: _ => inr x
  end.

(** [str(n)] for an [int], as an f-string formats it. *)
Definition str_of_int (n : Z) : string :=
  NilZero.string_of_int (Z.to_int n).

(** ** The client object and its constructor *)

Record API : Type := mkAPI { _url : string; _key : string }.

(** The truth value of [os.environ.get(..)]: [None] and the empty string
    are false. *)
Definition truthy (x : option string) : bool :=
  match x with
  | Some s => str_truthy s
  | None => false
  end.

(** [x or ''] for [x = os.environ.get(..)]. *)
Definition or_empty (x : option string) : string :=
  if truthy x then default EmptyString x else EmptyString.

(** [API.__init__], reading [os.environ]. *)
Definition API_init (environ : gmap string string) : result API :=
  match environ !! "API_URL" with
  | None | Some EmptyString =>
      inl (Exception "Missing env variable: 'API_URL'")
  | Some url =>
      match index0 (split "," (or_empty (environ !! "API_KEYS"))) with
      | inl e => inl e
      | inr key =>
          if negb (str_truthy key)
          then inl (Exception "Missing or empty env variable: 'API_KEYS'")
          else inr (mkAPI url key)
      end
  end.

(** ** Data carried by the API *)

(** A dataclass with a schema: [t.schema().load(obj)] either builds a [T]
    or raises. *)
Class Schema (T : Type) : Type := { schema_load : json -> result T }.

(** [d[key]] on the items of a [dict]. *)
Fixpoint json_get (d : list (string * json)) (key : string) : option json :=
  match d with
  | [] => None
  | (k, v) :: d' => if String.eqb k key then Some v else json_get d' key
  end.

(** [obj[key]] for a string key: only a [dict] holding the key answers. *)
Definition subscript (obj : json) (key : string) : result json :=
  match obj with
  | JDict d =>
      match json_get d key with
      | Some v => inr v
      | None => inl (KeyError key)
      end
  | _ => inl TypeError
  end.

Module Provider.
(** Modelled from the spec: [matcher/models/api/provider.py] is not part
    of the sources at hand.  The spec gives a provider an identifier and
    a name, read from the fields [id] and [name] of a JSON object. *)
Record t : Type := mk { id : Z; name : string }.

Definition load (obj : json) : result t :=
  match obj with
  | JDict d =>
      match json_get d "id", json_get d "name" with
      | Some (JInt i), Some (JStr n) => inr (mk i n)
      | _, _ => inl ValidationError
      end
  | _ => inl ValidationError
  end.

(** The JSON object the server sends for a provider. *)
Definition to_json (p : t) : json :=
  JDict [("id", JInt (id p)); ("name", JStr (name p))].
End Provider.

#[export] Instance Provider_schema : Schema Provider.t :=
  {| schema_load := Provider.load |}.

(** Modelled from the spec: [matcher/models/api/page.py] is not part of the
    sources at hand.  A page wraps the ordered sequence [items]. *)
Record Page (T : Type) : Type := mkPage { items : list T }.
Arguments mkPage {T} items.
Arguments items {T} p.

Module CreateProviderDto.
(** Modelled from the spec: [matcher/models/api/dto.py] is not part of
    the sources at hand.  The payload holds just the provider name. *)
Record t : Type := mk { name : string }.

Definition to_dict (dto : t) : list (string * json) :=
  [("name", JStr (name dto))].
End CreateProviderDto.

(** [schema().load(l, many=True)]: every element in turn, the first
    failure ends the load. *)
Fixpoint load_each {T : Type} `{Schema T} (l : list json) : result (list T) :=
  match l with
  | [] => inr []
  | obj :: l' =>
      match schema_load obj with
      | inl e => inl e
      | inr x =>
          match load_each l' with
          | inl e => inl e
          | inr xs => inr (x :: xs)
          end
      end
  end.

Definition load_many {T : Type} `{Schema T} (obj : json) : result (list T) :=
  match obj with
  | JList l => load_each l
  | _ => inl ValidationError
  end.

(** [API._to_page]. *)
Definition _to_page {T : Type} `{Schema T} (obj : json) : result (Page T) :=
  match subscript obj "items" with
  | inl e => inl e
  | inr its =>
      match load_many its with
      | inl e => inl e
      | inr l => inr (mkPage l)
      end
  end.

(** ** The world outside the client *)

Inductive Method : Type := GET | POST.

(** What [open(path, mode)] returns: the file at [path] with its bytes. *)
Record FileObj : Type := mkFile { fo_name : string; fo_bytes : string }.

(** The arguments of one call of [requests.get] or [requests.post].  What
    the HTTP library sends for them is [request_body] below. *)
Record Request : Type := mkRequest {
  req_method : Method;
  req_url : string;
  req_headers : list (string * string);
  req_files : option (list (string * FileObj));
  req_json : option (list (string * json))
}.

Record Response : Type := mkResponse { status_code : Z; content : string }.

(** [bool(response)] is [response.ok]: no 4xx or 5xx status. *)
Definition Response_bool (r : Response) : bool :=
  negb ((400 <=? status_code r) && (status_code r <? 600)).

(** The server answers a request, possibly depending on the requests made
    before it ([None]: no answer, the HTTP library raises); [disk] holds
    the files that can be opened for reading; [sent] and [logged] record,
    oldest first, the requests issued and the messages logged at level
    error. *)
Record World : Type := mkWorld {
  server : list Request -> Request -> option Response;
  disk : gmap string string;
  sent : list Request;
  logged : list string
}.

(** The client object and the world; a method may change both. *)
Record State : Type := mkState { self : API; world : World }.

(** ** The monad of methods *)

Definition M (A : Type) : Type := State -> result A * State.

Definition ret {A : Type} (x : A) : M A := fun s => (inr x, s).

Definition raise {A : Type} (e : exn) : M A := fun s => (inl e, s).

Definition bind {A B : Type} (m : M A) (k : A -> M B) : M B :=
  fun s =>
    match m s with
    | (inl e, s') => (inl e, s')
    | (inr x, s') => k x s'
    end.

Definition lift {A : Type} (r : result A) : M A :=
  match r with
  | inl e => raise e
  | inr x => ret x
  end.

#[export] Instance M_ret : MRet M := @ret.
#[export] Instance M_bind : MBind M := fun A B k m => bind m k.

Definition get_self : M API := fun s => (inr (self s), s).

(** The state after one more request, and after one more log message. *)
Definition with_sent (s : State) (r : Request) : State :=
  let w := world s in
  mkState (self s) (mkWorld (server w) (disk w) (sent w ++ [r]) (logged w)).

Definition with_logged (s : State) (msg : string) : State :=
  let w := world s in
  mkState (self s) (mkWorld (server w) (disk w) (sent w) (logged w ++ [msg])).

(** [logging.error(msg)]. *)
Definition logging_error (msg : string) : M unit :=
  fun s => (inr tt, with_logged s msg).

(** [open(path, 'rb')]. *)
Definition open_rb (path : string) : M FileObj :=
  fun s =>
    match disk (world s) !! path with
    | Some data => (inr (mkFile path data), s)
    | None => (inl (OSError path), s)
    end.

(** The answer the server gives to [r] in state [s]. *)
Definition answer (s : State) (r : Request) : option Response :=
  server (world s) (sent (world s)) r.

(** One HTTP round trip: the request is recorded, and the server's answer
    to it returned. *)
Definition requests_send (r : Request) : M Response :=
  fun s =>
    match answer s r with
    | Some response => (inr response, with_sent s r)
    | None => (inl ConnectionError, with_sent s r)
    end.

Definition requests_get (url : string) (headers : list (string * string))
  : M Response :=
  requests_send (mkRequest GET url headers None None).

Definition requests_post (url : string) (headers : list (string * string))
    (files : option (list (string * FileObj)))
    (json_arg : option (list (string * json))) : M Response :=
  requests_send (mkRequest POST url headers files json_arg).

(** ** The transport helpers *)

(** [API._get]. *)
Definition _get (route : string) : M Response :=
  api ← get_self;
  response ← requests_get (_url api ++ route) [("x-api-key", _key api)];
  if negb (status_code response =? 200) then
    logging_error "GETting API failed: ";;
    raise (Exception (content response))
  else
    mret response.

(** [API._post]; the defaults of [json] and [file_path] are [[]] and the
    empty string. *)
Definition _post (route : string) (json_arg : list (string * json))
    (file_path : string) : M Response :=
  api ← get_self;
  files ← (if nonzero (String.length file_path)
           then f ← open_rb file_path; mret (Some [("file", f)])
           else mret None);
  response ← requests_post (_url api ++ route) [("x-api-key", _key api)]
                files
                (if nonzero (length json_arg) then Some json_arg else None);
  if negb (status_code response =? 201) then
    logging_error "POSTting API failed: ";;
    raise (Exception (content response))
  else
    mret response.

(** ** The public operations *)

Section Operations.

(** [response.json()] decodes the body; the decoder belongs to the HTTP
    library and is fixed but arbitrary here. *)
Variable json_loads : string -> result json.

Definition Response_json (response : Response) : M json :=
  lift (json_loads (content response)).

(** [API.ping]. *)
Definition ping : M bool :=
  response ← _get "/";
  mret (if Response_bool response then true else false).

(** [API.get_providers]. *)
Definition get_providers : M (Page Provider.t) :=
  response ← _get "/external-providers";
  obj ← Response_json response;
  lift (_to_page obj).

(** [API.post_provider]. *)
Definition post_provider (provider_name : string) : M Provider.t :=
  let dto := CreateProviderDto.mk provider_name in
  response ← _post "/external-providers" (CreateProviderDto.to_dict dto) "";
  obj ← Response_json response;
  lift (schema_load obj).

(** [API.post_provider_icon]; it returns [None]. *)
Definition post_provider_icon (provider_id : Z) (icon_path : string)
  : M unit :=
  _post ("/external-providers/" ++ str_of_int provider_id ++ "/icon")
        [] icon_path;;
  mret tt.

(** A call of one of the four public methods, and what it returns. *)
Inductive Call : Type :=
  | CallPing
  | CallGetProviders
  | CallPostProvider (provider_name : string)
  | CallPostProviderIcon (provider_id : Z) (icon_path : string).

Inductive Value : Type :=
  | VBool (b : bool)
  | VPage (p : Page Provider.t)
  | VProvider (p : Provider.t)
  | VNone.

Definition call (c : Call) : M Value :=
  match c with
  | CallPing => b ← ping; mret (VBool b)
  | CallGetProviders => p ← get_providers; mret (VPage p)
  | CallPostProvider n => p ← post_provider n; mret (VProvider p)
  | CallPostProviderIcon i path => post_provider_icon i path;; mret VNone
  end.

(** A caller making the calls [cs] one after the other, going on to the
    next one whether the call returned or raised. *)
Fixpoint calls (cs : list Call) (s : State) : State :=
  match cs with
  | [] => s
  | c :: cs' => calls cs' (snd (call c s))
  end.

End Operations.

(** ** Notions the statements use *)

(** The requests a method issues when run from [s]: those recorded beyond
    the ones already in [sent]. *)
Definition issued {A : Type} (m : M A) (s : State) : list Request :=
  drop (length (sent (world s))) (sent (world (snd (m s)))).

(** The messages a method logs when run from [s]. *)
Definition logs {A : Type} (m : M A) (s : State) : list string :=
  drop (length (logged (world s))) (logged (world (snd (m s)))).

(** The request [_get] and [_post] build for a route. *)
Definition get_request (api : API) (route : string) : Request :=
  mkRequest GET (_url api ++ route) [("x-api-key", _key api)] None None.

Definition post_request (api : API) (route : string)
    (files : option (list (string * FileObj)))
    (json_arg : option (list (string * json))) : Request :=
  mkRequest POST (_url api ++ route) [("x-api-key", _key api)] files json_arg.

(** The request [post_provider] issues. *)
Definition create_request (api : API) (provider_name : string) : Request :=
  post_request api "/external-providers" None
    (Some [("name", JStr provider_name)]).

(** The request [post_provider_icon] issues for a file it could open. *)
Definition icon_request (api : API) (provider_id : Z) (f : FileObj)
  : Request :=
  post_request api ("/external-providers/" ++ str_of_int provider_id ++ "/icon")
    (Some [("file", f)]) None.

(** The [json=] argument [_post] passes on. *)
Definition json_payload (json_arg : list (string * json))
  : option (list (string * json)) :=
  if nonzero (length json_arg) then Some json_arg else None.

(** What a helper does once its request [r] is built: the round trip, then
    the check of the status against [ok], logging [msg] on a mismatch. *)
Definition round_trip (ok : Z) (msg : string) (s : State) (r : Request)
  : result Response * State :=
  match answer s r with
  | None => (inl ConnectionError, with_sent s r)
  | Some response =>
      if status_code response =? ok then (inr response, with_sent s r)
      else (inl (Exception (content response)),
            with_logged (with_sent s r) msg)
  end.

(** The contract of a helper on the status of the answer: it returns the
    response exactly when the status is [ok]; otherwise it raises the
    generic exception with the body, having logged [msg]. *)
Definition status_contract (ok : Z) (msg : string) (response : Response)
    (res : result Response) (new_logs : list string) : Prop :=
  ((∃ x, res = inr x) ↔ status_code response = ok)
  ∧ (status_code response = ok → res = inr response ∧ new_logs = [])
  ∧ (status_code response ≠ ok →
     res = inl (Exception (content response)) ∧ new_logs = [msg]).

(** A JSON value is a provider object with the fields of [p]. *)
Definition describes (obj : json) (p : Provider.t) : Prop :=
  ∃ d, obj = JDict d
       ∧ json_get d "id" = Some (JInt (Provider.id p))
       ∧ json_get d "name" = Some (JStr (Provider.name p)).

(** The body the HTTP library sends for the arguments [files=] and
    [json=] of a request, as [prepare_body] of the requests library builds
    it: files, when there are any, make a multipart body holding them (no
    form data is passed, so the files alone) and take the place of the
    JSON body; without files the JSON object, when one is passed, is the
    body; otherwise there is none. *)
Record Body : Type := mkBody {
  body_json : option (list (string * json));
  body_files : list (string * FileObj)
}.

Definition prepare_body (files : option (list (string * FileObj)))
    (json_arg : option (list (string * json))) : Body :=
  match files with
  | Some (f :: fs) => mkBody None (f :: fs)
  | _ => mkBody json_arg []
  end.

Definition request_body (r : Request) : Body :=
  prepare_body (req_files r) (req_json r).

(** The request carries the one header [x-api-key] with value [key]. *)
Definition keyed (key : string) (r : Request) : Prop :=
  req_headers r = [("x-api-key", key)].

(** From [s] to [s']: the client is the same and the requests recorded
    since all carry the client's key. *)
Definition keyed_step (s s' : State) : Prop :=
  self s' = self s
  ∧ ∃ new, sent (world s') = (sent (world s) ++ new)%list
           ∧ Forall (keyed (_key (self s))) new.

(** [c] occurs in [s]. *)
Fixpoint contains (c : ascii) (s : string) : bool :=
  match s with
  | EmptyString => false
  | String c' s' => Ascii.eqb c' c || contains c s'
  end.

(** The endpoint of each public call: the method, the route appended to
    the base URL, the status the helper expects and the message it logs
    otherwise. *)
Definition method_of (c : Call) : Method :=
  match c with
  | CallPing | CallGetProviders => GET
  | CallPostProvider _ | CallPostProviderIcon _ _ => POST
  end.

Definition route_of (c : Call) : string :=
  match c with
  | CallPing => "/"
  | CallGetProviders | CallPostProvider _ => "/external-providers"
  | CallPostProviderIcon provider_id _ =>
      "/external-providers/" ++ str_of_int provider_id ++ "/icon"
  end.

Definition expected_status (m : Method) : Z :=
  match m with
  | GET => 200
  | POST => 201
  end.

Definition failure_msg (m : Method) : string :=
  match m with
  | GET => "GETting API failed: "
  | POST => "POSTting API failed: "
  end.

(** The call is an icon upload whose non-empty path cannot be opened. *)
Definition unopenable_icon (c : Call) (s : State) : Prop :=
  ∃ provider_id icon_path,
    c = CallPostProviderIcon provider_id icon_path
    ∧ icon_path ≠ "" ∧ disk (world s) !! icon_path = None.

(** The first comma-separated entry of [API_KEYS] is missing or empty. *)
Definition first_key_empty (environ : gmap string string) : Prop :=
  environ !! "API_KEYS" = None
  ∨ environ !! "API_KEYS" = Some ""
  ∨ ∃ rest, environ !! "API_KEYS" = Some ("," ++ rest).

(** ** Worlds for the examples *)

(** A world to run examples in: the server answers every [GET] with 200 and
    every [POST] with 201, and one file can be opened. *)
Definition demo_server (_ : list Request) (r : Request) : option Response :=
  match req_method r with
  | GET => Some (mkResponse 200 "items")
  | POST => Some (mkResponse 201 "provider")
  end.

Definition demo_world : World :=
  mkWorld demo_server {[ "icon.png" := "PNG" ]} [] [].

Definition demo_state : State :=
  mkState (mkAPI "http://api" "k1") demo_world.

(** A server answering everything with [status] and [body]. *)
Definition const_world (status : Z) (body : string) : World :=
  mkWorld (fun _ _ => Some (mkResponse status body)) ∅ [] [].

Definition const_state (status : Z) (body : string) : State :=
  mkState (mkAPI "http://api" "k1") (const_world status body).

(** A server that never answers. *)
Definition silent_state : State :=
  mkState (mkAPI "http://api" "k1") (mkWorld (fun _ _ => None) ∅ [] []).

(** A decoder for the examples: the two bodies [demo_server] sends. *)
Definition demo_loads (body : string) : result json :=
  if String.eqb body "items" then
    inr (JDict [("items", JList [Provider.to_json (Provider.mk 1 "A");
                                 Provider.to_json (Provider.mk 2 "B")])])
  else if String.eqb body "provider" then
    inr (Provider.to_json (Provider.mk 5 "X"))
  else inl JSONDecodeError.

(** ** The constructor *)

Lemma split_nonempty sep s : split sep s ≠ [].
Proof.
  destruct s as [|c s]; simpl; [discriminate|].
  destruct (Ascii.eqb c sep); [discriminate|].
  destruct (split sep s); discriminate.
Qed.

Lemma split_first sep piece rest :
  contains sep piece = false →
  split sep (piece ++ String sep rest) = piece :: split sep rest.
Proof.
  induction piece as [|c piece IH]; simpl; intros Hc.
  - by rewrite Ascii.eqb_refl.
  - apply orb_false_iff in Hc as [Hc1 Hc2].
    rewrite Hc1, (IH Hc2). done.
Qed.

Lemma split_none sep s : contains sep s = false → split sep s = [s].
Proof.
  induction s as [|c s IH]; simpl; intros Hc; [done|].
  apply orb_false_iff in Hc as [Hc1 Hc2].
  rewrite Hc1, (IH Hc2). done.
Qed.

Lemma split_leading sep rest :
  split sep (String sep rest) = EmptyString :: split sep rest.
Proof. simpl. by rewrite Ascii.eqb_refl. Qed.

Lemma or_empty_Some s : or_empty (Some s) = s.
Proof. by destruct s. Qed.

Example split_two : split "," "k1,k2" = ["k1"; "k2"].
Proof. reflexivity. Qed.

Example split_empty : split "," "" = [""].
Proof. reflexivity. Qed.

Example split_edges : split "," ",a,,b," = [""; "a"; ""; "b"; ""].
Proof. reflexivity. Qed.

Example str_of_int_5 : str_of_int 5 = "5".
Proof. reflexivity. Qed.

Example str_of_int_0 : str_of_int 0 = "0".
Proof. reflexivity. Qed.

Example str_of_int_neg : str_of_int (-12) = "-12".
Proof. reflexivity. Qed.

(** C4: construction raises when [API_URL] is absent; it raises when
    [API_KEYS] is absent or empty (with the message about [API_KEYS] when
    the base URL is there); and when [API_KEYS] holds a first key [k1], a
    comma and more, it succeeds and stores [k1] alone. *)
Theorem API_init_settings (environ : gmap string string) :
  (environ !! "API_URL" = None →
   API_init environ = inl (Exception "Missing env variable: 'API_URL'"))
  ∧ (environ !! "API_KEYS" = None ∨ environ !! "API_KEYS" = Some "" →
     (∃ msg, API_init environ = inl (Exception msg))
     ∧ ∀ url, environ !! "API_URL" = Some url → url ≠ "" →
         API_init environ
         = inl (Exception "Missing or empty env variable: 'API_KEYS'"))
  ∧ (∀ url k1 rest,
       environ !! "API_URL" = Some url → url ≠ "" →
       environ !! "API_KEYS" = Some (k1 ++ "," ++ rest) →
       k1 ≠ "" → contains "," k1 = false →
       API_init environ = inr (mkAPI url k1)).
Proof.
  unfold API_init. split; [|split].
  - by intros ->.
  - intros Hk.
    assert (Hs : split "," (or_empty (environ !! "API_KEYS")) = [""])
      by (destruct Hk as [-> | ->]; reflexivity).
    rewrite Hs. simpl. split.
    + destruct (environ !! "API_URL") as [[|c u]|]; eauto.
    + intros url -> Hne. by destruct url.
  - intros url k1 rest -> Hne -> Hk1 Hc.
    rewrite or_empty_Some. change ("," ++ rest) with (String "," rest).
    rewrite (split_first _ _ _ Hc). simpl.
    destruct url as [|c u]; [done|]. by destruct k1.
Qed.

Lemma API_init_settings_witness :
  API_init ∅ = inl (Exception "Missing env variable: 'API_URL'")
  ∧ API_init {[ "API_URL" := "http://api" ]}
    = inl (Exception "Missing or empty env variable: 'API_KEYS'")
  ∧ API_init (<["API_KEYS" := "k1,k2"]> {[ "API_URL" := "http://api" ]})
    = inr (mkAPI "http://api" "k1").
Proof.
  split; [|split].
  - apply (proj1 (API_init_settings ∅)). reflexivity.
  - refine (proj2 (proj1 (proj2 (API_init_settings
                                   {[ "API_URL" := "http://api" ]})) _)
                  "http://api" _ _);
      [left; vm_compute; reflexivity | vm_compute; reflexivity | discriminate].
  - apply (proj2 (proj2 (API_init_settings
             (<["API_KEYS" := "k1,k2"]> {[ "API_URL" := "http://api" ]})))
             "http://api" "k1" "k2");
      [vm_compute; reflexivity | discriminate | vm_compute; reflexivity
      | discriminate | reflexivity].
Defined.

Lemma API_init_single_key (environ : gmap string string) url key :
  environ !! "API_URL" = Some url → url ≠ "" →
  environ !! "API_KEYS" = Some key → key ≠ "" → contains "," key = false →
  API_init environ = inr (mkAPI url key).
Proof.
  unfold API_init. intros -> Hne -> Hk Hc.
  rewrite or_empty_Some, (split_none _ _ Hc). simpl.
  destruct url; [done|]. by destruct key.
Qed.

(** C10: when the first comma-separated entry of [API_KEYS] is empty (the
    value is empty or starts with a comma), construction raises, whatever
    follows the comma; with the base URL set, the error is the one about
    [API_KEYS]. *)
Theorem API_init_first_entry_empty (environ : gmap string string) keys :
  environ !! "API_KEYS" = Some keys →
  keys = "" ∨ (∃ rest, keys = "," ++ rest) →
  (∃ msg, API_init environ = inl (Exception msg))
  ∧ ∀ url, environ !! "API_URL" = Some url → url ≠ "" →
      API_init environ
      = inl (Exception "Missing or empty env variable: 'API_KEYS'").
Proof.
  intros Hk Hfirst. unfold API_init. rewrite Hk, or_empty_Some.
  assert (H0 : index0 (split "," keys) = inr "").
  { destruct Hfirst as [-> | [rest ->]]; [done|].
    change ("," ++ rest) with (String "," rest). by rewrite split_leading. }
  rewrite H0. simpl. split.
  - destruct (environ !! "API_URL") as [[|c u]|]; eauto.
  - intros url -> Hne. by destruct url.
Qed.

Lemma API_init_first_entry_empty_witness :
  API_init (<["API_KEYS" := ",k2"]> {[ "API_URL" := "http://api" ]})
  = inl (Exception "Missing or empty env variable: 'API_KEYS'").
Proof.
  refine (proj2 (API_init_first_entry_empty
                   (<["API_KEYS" := ",k2"]> {[ "API_URL" := "http://api" ]})
                   ",k2" _ _) "http://api" _ _);
    [vm_compute; reflexivity | right; exists "k2"; reflexivity
    | vm_compute; reflexivity | discriminate].
Defined.

(** ** The transport helpers *)

Lemma _get_eq route s :
  _get route s
  = round_trip 200 "GETting API failed: " s (get_request (self s) route).
Proof.
  unfold _get, round_trip, mbind, M_bind, bind, get_self, requests_get,
    requests_send, get_request, answer. simpl.
  destruct (server _ _ _) as [response|]; [|done].
  by destruct (status_code response =? 200).
Qed.

Lemma _post_eq route json_arg path s :
  _post route json_arg path s
  = if nonzero (String.length path) then
      match disk (world s) !! path with
      | None => (inl (OSError path), s)
      | Some data =>
          round_trip 201 "POSTting API failed: " s
            (post_request (self s) route
               (Some [("file", mkFile path data)]) (json_payload json_arg))
      end
    else
      round_trip 201 "POSTting API failed: " s
        (post_request (self s) route None (json_payload json_arg)).
Proof.
  unfold _post, round_trip, mbind, M_bind, bind, get_self, requests_post,
    requests_send, post_request, json_payload, open_rb, answer.
  simpl. destruct (nonzero (String.length path)); simpl.
  - destruct (disk (world s) !! path) as [data|]; [|done]. simpl.
    destruct (server _ _ _) as [response|]; [|done].
    by destruct (status_code response =? 201).
  - destruct (server _ _ _) as [response|]; [|done].
    by destruct (status_code response =? 201).
Qed.

Lemma drop_old {A : Type} (old new : list A) :
  drop (length old) (old ++ new) = new.
Proof. by rewrite drop_app_length. Qed.

Lemma round_trip_issued ok msg s r :
  drop (length (sent (world s))) (sent (world (snd (round_trip ok msg s r))))
  = [r].
Proof.
  unfold round_trip. destruct (answer s r) as [response|]; simpl.
  - destruct (status_code response =? ok); simpl; apply drop_old.
  - apply drop_old.
Qed.

Lemma round_trip_self ok msg s r :
  self (snd (round_trip ok msg s r)) = self s.
Proof.
  unfold round_trip. destruct (answer s r) as [response|]; [|done].
  by destruct (status_code response =? ok).
Qed.

Lemma round_trip_contract ok msg s r response :
  answer s r = Some response →
  status_contract ok msg response (fst (round_trip ok msg s r))
    (drop (length (logged (world s)))
          (logged (world (snd (round_trip ok msg s r))))).
Proof.
  intros Ha. unfold round_trip, status_contract. rewrite Ha.
  destruct (Z.eqb_spec (status_code response) ok) as [Heq|Hne]; simpl.
  - rewrite drop_all. split; [|split]; [split; eauto | done | done].
  - rewrite drop_old. split; [|split]; [|done|done].
    split; [intros [x Hx]; discriminate | done].
Qed.

Lemma _get_issued route s :
  issued (_get route) s = [get_request (self s) route].
Proof. unfold issued. rewrite _get_eq. apply round_trip_issued. Qed.

Lemma _post_issued route json_arg path s r :
  issued (_post route json_arg path) s = [r] →
  _post route json_arg path s = round_trip 201 "POSTting API failed: " s r.
Proof.
  unfold issued. rewrite _post_eq.
  destruct (nonzero (String.length path)).
  - destruct (disk (world s) !! path) as [data|].
    + rewrite round_trip_issued. by intros [= <-].
    + simpl. rewrite drop_all. discriminate.
  - rewrite round_trip_issued. by intros [= <-].
Qed.

(** C3: whatever the route, when the request a helper issued is answered,
    [_get] returns the response iff its status is 200 and [_post] iff it
    is 201; on any other status the helper raises [Exception] carrying
    the raw body, and one error message has been logged by then. *)
Theorem transport_status_contract route json_arg path s r response :
  (issued (_get route) s = [r] → answer s r = Some response →
   status_contract 200 "GETting API failed: " response
     (fst (_get route s)) (logs (_get route) s))
  ∧ (issued (_post route json_arg path) s = [r] →
     answer s r = Some response →
     status_contract 201 "POSTting API failed: " response
       (fst (_post route json_arg path s))
       (logs (_post route json_arg path) s)).
Proof.
  split; intros Hi Ha; unfold logs.
  - rewrite _get_issued in Hi. injection Hi as <-.
    rewrite _get_eq. by apply round_trip_contract.
  - rewrite (_post_issued _ _ _ _ _ Hi). by apply round_trip_contract.
Qed.

Lemma transport_status_contract_witness :
  status_contract 200 "GETting API failed: " (mkResponse 404 "not found")
    (fst (_get "/" (const_state 404 "not found")))
    (logs (_get "/") (const_state 404 "not found"))
  ∧ status_contract 201 "POSTting API failed: " (mkResponse 404 "not found")
      (fst (_post "/x" [("a", JInt 1)] "" (const_state 404 "not found")))
      (logs (_post "/x" [("a", JInt 1)] "") (const_state 404 "not found")).
Proof.
  split.
  - apply (proj1 (transport_status_contract "/" [] ""
                    (const_state 404 "not found")
                    (get_request (mkAPI "http://api" "k1") "/")
                    (mkResponse 404 "not found"))); reflexivity.
  - apply (proj2 (transport_status_contract "/x" [("a", JInt 1)] ""
                    (const_state 404 "not found")
                    (post_request (mkAPI "http://api" "k1") "/x" None
                       (Some [("a", JInt 1)]))
                    (mkResponse 404 "not found"))); reflexivity.
Defined.

Example _get_404 :
  fst (_get "/" (const_state 404 "not found")) = inl (Exception "not found")
  ∧ logs (_get "/") (const_state 404 "not found") = ["GETting API failed: "].
Proof. split; reflexivity. Qed.

Example _post_200 :
  fst (_post "/x" [("a", JInt 1)] "" (const_state 200 "fine"))
  = inl (Exception "fine").
Proof. reflexivity. Qed.

(** ** The health check *)

Lemma ping_eq s :
  ping s
  = match _get "/" s with
    | (inl e, s') => (inl e, s')
    | (inr response, s') =>
        (inr (if Response_bool response then true else false), s')
    end.
Proof. reflexivity. Qed.

(** [ping] has no way to return [False]: it returns only after [_get]
    did, and then the status is 200. *)
Lemma ping_never_false s : fst (ping s) ≠ inr false.
Proof.
  rewrite ping_eq, _get_eq. unfold round_trip.
  destruct (answer s _) as [response|]; [|discriminate].
  destruct (Z.eqb_spec (status_code response) 200) as [Heq|Hne];
    [|discriminate].
  unfold Response_bool. rewrite Heq. discriminate.
Qed.

(** C1: when the [GET] of the root path is answered with status 200,
    [ping] returns [True]; when it is answered with any other status,
    [ping] does not return [False]: it raises the exception of [_get],
    carrying the body. *)
Theorem ping_status s response :
  answer s (get_request (self s) "/") = Some response →
  (status_code response = 200 → fst (ping s) = inr true)
  ∧ (status_code response ≠ 200 →
     fst (ping s) = inl (Exception (content response))
     ∧ fst (ping s) ≠ inr false).
Proof.
  intros Ha. rewrite ping_eq, _get_eq. unfold round_trip. rewrite Ha.
  split.
  - intros Heq. rewrite Heq. simpl. unfold Response_bool. by rewrite Heq.
  - intros Hne. apply Z.eqb_neq in Hne. rewrite Hne. simpl.
    split; [done | discriminate].
Qed.

Lemma ping_status_witness :
  fst (ping (const_state 200 "ok")) = inr true
  ∧ fst (ping (const_state 503 "down")) = inl (Exception "down")
  ∧ fst (ping (const_state 503 "down")) ≠ inr false.
Proof.
  split.
  - apply (proj1 (ping_status (const_state 200 "ok") (mkResponse 200 "ok")
                    eq_refl)). reflexivity.
  - apply (proj2 (ping_status (const_state 503 "down")
                    (mkResponse 503 "down") eq_refl)). discriminate.
Defined.

(** ** Providers *)

Section Decoding.

Variable json_loads : string -> result json.

Lemma Provider_load_describes obj p :
  describes obj p → Provider.load obj = inr p.
Proof.
  intros (d & -> & Hid & Hname). unfold Provider.load.
  rewrite Hid, Hname. by destruct p.
Qed.

Lemma Provider_to_json_describes p : describes (Provider.to_json p) p.
Proof.
  exists [("id", JInt (Provider.id p)); ("name", JStr (Provider.name p))].
  done.
Qed.

Lemma load_each_describes (l : list json) (ps : list Provider.t) :
  Forall2 describes l ps → load_each l = inr ps.
Proof.
  induction 1 as [|obj p l ps Hd _ IH]; simpl; [done|].
  by rewrite (Provider_load_describes _ _ Hd), IH.
Qed.

Lemma load_each_length (l : list json) (ps : list Provider.t) :
  load_each l = inr ps → length ps = length l.
Proof.
  revert ps. induction l as [|obj l IH]; simpl; intros ps.
  - by intros [= <-].
  - destruct (Provider.load obj) as [e|p]; [discriminate|].
    destruct (load_each l) as [e|ps'] eqn:Hl; [discriminate|].
    intros [= <-]. simpl. by rewrite (IH ps').
Qed.

Lemma get_providers_eq s :
  get_providers json_loads s
  = match _get "/external-providers" s with
    | (inl e, s') => (inl e, s')
    | (inr response, s') =>
        match json_loads (content response) with
        | inl e => (inl e, s')
        | inr obj =>
            match _to_page obj with
            | inl e => (inl e, s')
            | inr page => (inr page, s')
            end
        end
    end.
Proof.
  unfold get_providers, Response_json, mbind, M_bind, bind, lift.
  destruct (_get _ s) as [[e|response] s']; [done|].
  destruct (json_loads _) as [e|obj]; [done|]. simpl.
  by destruct (_to_page obj).
Qed.

(** C5: when the [GET] of [/external-providers] is answered with status
    200 and a JSON object whose [items] is an array of provider objects,
    [get_providers] returns the page of the providers these objects
    describe, one per element and in the order of the array. *)
Theorem get_providers_page s response d l ps :
  answer s (get_request (self s) "/external-providers") = Some response →
  status_code response = 200 →
  json_loads (content response) = inr (JDict d) →
  json_get d "items" = Some (JList l) →
  Forall2 describes l ps →
  fst (get_providers json_loads s) = inr (mkPage ps)
  ∧ length (items (mkPage ps)) = length l.
Proof.
  intros Ha Hs Hj Hi Hd. rewrite get_providers_eq, _get_eq.
  unfold round_trip. rewrite Ha, Hs. simpl. rewrite Hj.
  unfold _to_page, subscript. rewrite Hi. simpl.
  rewrite (load_each_describes _ _ Hd). simpl.
  split; [done|]. symmetry. by eapply Forall2_length.
Qed.

End Decoding.

Lemma get_providers_page_witness :
  fst (get_providers demo_loads demo_state)
  = inr (mkPage [Provider.mk 1 "A"; Provider.mk 2 "B"])
  ∧ length (items (mkPage [Provider.mk 1 "A"; Provider.mk 2 "B"]))
    = length [Provider.to_json (Provider.mk 1 "A");
              Provider.to_json (Provider.mk 2 "B")].
Proof.
  apply (get_providers_page demo_loads demo_state (mkResponse 200 "items")
           [("items", JList [Provider.to_json (Provider.mk 1 "A");
                             Provider.to_json (Provider.mk 2 "B")])]
           [Provider.to_json (Provider.mk 1 "A");
            Provider.to_json (Provider.mk 2 "B")]);
    try reflexivity.
  repeat constructor; apply Provider_to_json_describes.
Defined.

Section Posting.

Variable json_loads : string -> result json.

Lemma post_provider_eq provider_name s :
  post_provider json_loads provider_name s
  = match _post "/external-providers" [("name", JStr provider_name)] "" s with
    | (inl e, s') => (inl e, s')
    | (inr response, s') =>
        match json_loads (content response) with
        | inl e => (inl e, s')
        | inr obj =>
            match Provider.load obj with
            | inl e => (inl e, s')
            | inr p => (inr p, s')
            end
        end
    end.
Proof.
  unfold post_provider, Response_json, mbind, M_bind, bind, lift. simpl.
  destruct (_post _ _ _ s) as [[e|response] s']; [done|].
  destruct (json_loads _) as [e|obj]; [done|]. simpl.
  by destruct (Provider.load obj).
Qed.

Lemma _post_json_only route json_arg s :
  json_arg ≠ [] →
  _post route json_arg "" s
  = round_trip 201 "POSTting API failed: " s
      (post_request (self s) route None (Some json_arg)).
Proof. intros Hne. rewrite _post_eq. by destruct json_arg. Qed.

(** C6: for every name, [post_provider name] issues one request, a [POST]
    to [/external-providers] with the JSON body holding [name] under the
    key [name]; and when it is answered with status 201 and a provider
    object, the provider returned has the [id] and [name] of that
    object. *)
Theorem post_provider_sends_and_decodes provider_name s :
  issued (post_provider json_loads provider_name) s
  = [create_request (self s) provider_name]
  ∧ ∀ response obj p,
      answer s (create_request (self s) provider_name) = Some response →
      status_code response = 201 →
      json_loads (content response) = inr obj →
      describes obj p →
      fst (post_provider json_loads provider_name s) = inr p.
Proof.
  unfold issued. rewrite post_provider_eq, _post_json_only by done.
  fold (create_request (self s) provider_name). split.
  - rewrite <- (round_trip_issued 201 "POSTting API failed: " s
                  (create_request (self s) provider_name)).
    destruct (round_trip _ _ _ _) as [[e|response] s']; [done|].
    destruct (json_loads _) as [e|obj]; [done|].
    by destruct (Provider.load obj).
  - intros response obj p Ha Hs Hj Hd. unfold round_trip.
    rewrite Ha, Hs. simpl. rewrite Hj.
    by rewrite (Provider_load_describes _ _ Hd).
Qed.

(** ** The icon upload *)

Lemma post_provider_icon_eq provider_id icon_path s :
  post_provider_icon provider_id icon_path s
  = match _post ("/external-providers/" ++ str_of_int provider_id ++ "/icon")
            [] icon_path s with
    | (inl e, s') => (inl e, s')
    | (inr _, s') => (inr tt, s')
    end.
Proof. reflexivity. Qed.

(** C7, as amended: for every provider id and every non-empty path, if the
    file at the path can be opened, [post_provider_icon] issues one
    request, a [POST] to [/external-providers/{id}/icon] whose only
    payload is that file; and if it cannot be opened, the call raises and
    leaves the state as it was: no request is sent. *)
Theorem post_provider_icon_nonempty_path provider_id icon_path s :
  icon_path ≠ "" →
  (∀ data, disk (world s) !! icon_path = Some data →
     issued (post_provider_icon provider_id icon_path) s
     = [icon_request (self s) provider_id (mkFile icon_path data)])
  ∧ (disk (world s) !! icon_path = None →
     post_provider_icon provider_id icon_path s = (inl (OSError icon_path), s)
     ∧ issued (post_provider_icon provider_id icon_path) s = []).
Proof.
  intros Hne. unfold issued. rewrite post_provider_icon_eq, _post_eq.
  assert (Hlen : nonzero (String.length icon_path) = true)
    by (by destruct icon_path).
  rewrite Hlen. split.
  - intros data ->.
    rewrite <- (round_trip_issued 201 "POSTting API failed: " s
                  (icon_request (self s) provider_id (mkFile icon_path data))).
    unfold icon_request, json_payload. simpl.
    by destruct (round_trip _ _ _ _) as [[e|response] s'].
  - intros ->. simpl. by rewrite drop_all.
Qed.

End Posting.

Lemma post_provider_sends_and_decodes_witness :
  fst (post_provider demo_loads "X" demo_state) = inr (Provider.mk 5 "X").
Proof.
  apply (proj2 (post_provider_sends_and_decodes demo_loads "X" demo_state)
           (mkResponse 201 "provider") (Provider.to_json (Provider.mk 5 "X")));
    try reflexivity.
  apply Provider_to_json_describes.
Defined.

Lemma post_provider_icon_nonempty_path_witness :
  issued (post_provider_icon 5 "icon.png") demo_state
  = [icon_request (mkAPI "http://api" "k1") 5 (mkFile "icon.png" "PNG")]
  ∧ post_provider_icon 5 "gone.png" demo_state
    = (inl (OSError "gone.png"), demo_state).
Proof.
  split.
  - apply (proj1 (post_provider_icon_nonempty_path 5 "icon.png" demo_state
                    ltac:(discriminate)) "PNG").
    vm_compute. reflexivity.
  - apply (proj2 (post_provider_icon_nonempty_path 5 "gone.png" demo_state
                    ltac:(discriminate))).
    vm_compute. reflexivity.
Defined.

(** C7, as stated, fails at the empty path: no file is opened, nothing is
    raised for it, and a [POST] without a file goes out. *)
Lemma post_provider_icon_empty_path :
  disk (world demo_state) !! "" = None
  ∧ fst (post_provider_icon 5 "" demo_state) = inr tt
  ∧ issued (post_provider_icon 5 "") demo_state
    = [post_request (mkAPI "http://api" "k1") "/external-providers/5/icon"
         None None].
Proof. split; [|split]; vm_compute; reflexivity. Qed.

(** ** The payload of a POST *)

Lemma nonzero_length_string (s : string) :
  nonzero (String.length s) = true ↔ s ≠ "".
Proof. destruct s; simpl; split; done. Qed.

Lemma json_payload_Some json_arg :
  is_Some (json_payload json_arg) ↔ json_arg ≠ [].
Proof.
  destruct json_arg as [|kv d]; unfold json_payload; simpl.
  - split; [intros [x Hx]; discriminate | done].
  - split; [done | eauto].
Qed.



(** With both an object and a path supplied, both are handed to the HTTP
    library, and the body it sends is the file alone. *)
Example post_both_supplied :
  issued (_post "/x" [("a", JInt 1)] "icon.png") demo_state
  = [post_request (mkAPI "http://api" "k1") "/x"
       (Some [("file", mkFile "icon.png" "PNG")]) (Some [("a", JInt 1)])]
  ∧ request_body
      (post_request (mkAPI "http://api" "k1") "/x"
         (Some [("file", mkFile "icon.png" "PNG")]) (Some [("a", JInt 1)]))
    = mkBody None [("file", mkFile "icon.png" "PNG")].
Proof. split; vm_compute; reflexivity. Qed.

(** With neither supplied, the request has no body. *)
Example post_nothing_supplied :
  issued (_post "/x" [] "") demo_state
  = [post_request (mkAPI "http://api" "k1") "/x" None None]
  ∧ request_body (post_request (mkAPI "http://api" "k1") "/x" None None)
    = mkBody None [].
Proof. split; vm_compute; reflexivity. Qed.

(** ** Every request is keyed, and the client is never changed *)

Lemma keyed_step_refl s : keyed_step s s.
Proof. split; [done|]. exists []. by rewrite app_nil_r. Qed.

Lemma keyed_step_trans s1 s2 s3 :
  keyed_step s1 s2 → keyed_step s2 s3 → keyed_step s1 s3.
Proof.
  intros [Hs1 (n1 & Hn1 & Hk1)] [Hs2 (n2 & Hn2 & Hk2)]. split; [congruence|].
  exists (n1 ++ n2)%list. rewrite Hn2, Hn1, <- app_assoc. split; [done|].
  apply Forall_app. split; [done|]. by rewrite <- Hs1.
Qed.

Lemma round_trip_keyed ok msg s r :
  keyed (_key (self s)) r → keyed_step s (snd (round_trip ok msg s r)).
Proof.
  intros Hk. split; [apply round_trip_self|]. exists [r].
  split; [|by constructor]. unfold round_trip.
  destruct (answer s r) as [response|]; [|done].
  by destruct (status_code response =? ok).
Qed.

Lemma _get_keyed route s : keyed_step s (snd (_get route s)).
Proof. rewrite _get_eq. by apply round_trip_keyed. Qed.

Lemma _post_keyed route json_arg path s :
  keyed_step s (snd (_post route json_arg path s)).
Proof.
  rewrite _post_eq. destruct (nonzero (String.length path)).
  - destruct (disk (world s) !! path) as [data|].
    + by apply round_trip_keyed.
    + apply keyed_step_refl.
  - by apply round_trip_keyed.
Qed.

Section Calls.

Variable json_loads : string -> result json.

Lemma call_state c s :
  snd (call json_loads c s)
  = match c with
    | CallPing => snd (_get "/" s)
    | CallGetProviders => snd (_get "/external-providers" s)
    | CallPostProvider n =>
        snd (_post "/external-providers" [("name", JStr n)] "" s)
    | CallPostProviderIcon i path =>
        snd (_post ("/external-providers/" ++ str_of_int i ++ "/icon")
               [] path s)
    end.
Proof.
  destruct c as [| |n|i path]; unfold call, mbind, M_bind, bind.
  - rewrite ping_eq. by destruct (_get "/" s) as [[e|response] s'].
  - rewrite get_providers_eq.
    destruct (_get _ s) as [[e|response] s']; [done|].
    destruct (json_loads _) as [e|obj]; [done|].
    by destruct (_to_page obj).
  - rewrite post_provider_eq.
    destruct (_post _ _ _ s) as [[e|response] s']; [done|].
    destruct (json_loads _) as [e|obj]; [done|].
    by destruct (Provider.load obj).
  - rewrite post_provider_icon_eq.
    by destruct (_post _ _ _ s) as [[e|response] s'].
Qed.

Lemma call_keyed c s : keyed_step s (snd (call json_loads c s)).
Proof.
  rewrite call_state.
  destruct c; [apply _get_keyed | apply _get_keyed
              | apply _post_keyed | apply _post_keyed].
Qed.

Lemma calls_keyed cs s : keyed_step s (calls json_loads cs s).
Proof.
  revert s. induction cs as [|c cs IH]; intros s; simpl.
  - apply keyed_step_refl.
  - eapply keyed_step_trans; [apply call_keyed | apply IH].
Qed.

(** C8: whatever client the constructor built, every request issued by
    any sequence of calls of [ping], [get_providers], [post_provider] and
    [post_provider_icon] carries the header [x-api-key] with the key the
    client holds since its construction. *)
Theorem requests_carry_api_key api w cs :
  ∃ new, sent (world (calls json_loads cs (mkState api w)))
         = (sent w ++ new)%list
         ∧ Forall (fun r => req_headers r = [("x-api-key", _key api)]) new.
Proof.
  destruct (calls_keyed cs (mkState api w)) as [_ Hnew]. exact Hnew.
Qed.

(** C9: no call changes the client: after any one call, and so after any
    sequence of calls, the base URL and the key are the ones the client
    had before. *)
Theorem client_never_modified c cs s :
  (_url (self (snd (call json_loads c s))) = _url (self s)
   ∧ _key (self (snd (call json_loads c s))) = _key (self s))
  ∧ (_url (self (calls json_loads cs s)) = _url (self s)
     ∧ _key (self (calls json_loads cs s)) = _key (self s)).
Proof.
  destruct (call_keyed c s) as [-> _].
  destruct (calls_keyed cs s) as [-> _]. done.
Qed.

End Calls.

(** A client built from [API_KEYS = k1,k2] sends [k1] with each of four
    calls. *)
Example demo_session_keyed :
  API_init (<["API_KEYS" := "k1,k2"]> {[ "API_URL" := "http://api" ]})
  = inr (self demo_state)
  ∧ map req_headers
      (sent (world (calls demo_loads
                      [CallPing; CallGetProviders; CallPostProvider "X";
                       CallPostProviderIcon 5 "icon.png"] demo_state)))
    = [[("x-api-key", "k1")]; [("x-api-key", "k1")];
       [("x-api-key", "k1")]; [("x-api-key", "k1")]].
Proof. split; vm_compute; reflexivity. Qed.

(** * Further properties of the client *)

(** ** The constructor, completely *)

Lemma split_head sep s :
  ∃ piece rest,
    split sep s = piece :: rest
    ∧ contains sep piece = false
    ∧ (s = piece ∨ ∃ s', s = piece ++ String sep s').
Proof.
  induction s as [|c s (piece & rest & Hsp & Hc & Hs)]; simpl.
  - exists "", []. eauto.
  - destruct (Ascii.eqb c sep) eqn:Hcs.
    + apply Ascii.eqb_eq in Hcs as ->. exists "", (split sep s).
      split; [done|]. split; [done|]. right. by exists s.
    + rewrite Hsp. exists (String c piece), rest. split; [done|].
      split; [simpl; by rewrite Hcs, Hc|].
      destruct Hs as [-> | [s' ->]]; [by left|]. right. by exists s'.
Qed.

Lemma index0_split sep s :
  ∃ piece, index0 (split sep s) = inr piece
           ∧ contains sep piece = false
           ∧ (s = piece ∨ ∃ s', s = piece ++ String sep s').
Proof.
  destruct (split_head sep s) as (piece & rest & -> & Hc & Hs).
  exists piece. eauto.
Qed.

Lemma str_truthy_true s : str_truthy s = true ↔ s ≠ "".
Proof. destruct s; simpl; split; done. Qed.

Lemma or_empty_None : or_empty None = "".
Proof. reflexivity. Qed.

Lemma API_init_first_key_empty (environ : gmap string string) :
  first_key_empty environ →
  index0 (split "," (or_empty (environ !! "API_KEYS"))) = inr "".
Proof.
  intros [-> | [-> | [rest ->]]]; [done | done |].
  rewrite or_empty_Some. change ("," ++ rest) with (String "," rest).
  by rewrite split_leading.
Qed.

Lemma first_piece_empty (environ : gmap string string) :
  index0 (split "," (or_empty (environ !! "API_KEYS"))) = inr "" →
  first_key_empty environ.
Proof.
  unfold first_key_empty.
  destruct (environ !! "API_KEYS") as [keys|]; [|by left].
  rewrite or_empty_Some. destruct keys as [|c keys]; [by eauto|]. simpl.
  destruct (Ascii.eqb c ",") eqn:Hc.
  - apply Ascii.eqb_eq in Hc as ->. intros _. right. right. by exists keys.
  - destruct (split "," keys); discriminate.
Qed.

Lemma API_init_inr (environ : gmap string string) api :
  API_init environ = inr api →
  environ !! "API_URL" = Some (_url api) ∧ _url api ≠ ""
  ∧ _key api ≠ "" ∧ contains "," (_key api) = false
  ∧ (environ !! "API_KEYS" = Some (_key api)
     ∨ ∃ rest, environ !! "API_KEYS" = Some (_key api ++ "," ++ rest)).
Proof.
  unfold API_init.
  destruct (environ !! "API_URL") as [[|c u]|]; [discriminate| |discriminate].
  destruct (index0_split "," (or_empty (environ !! "API_KEYS")))
    as (piece & -> & Hc & Hs).
  destruct piece as [|k ks]; [discriminate|]. simpl. intros [= <-]. simpl.
  split; [done|]. split; [done|]. split; [done|]. split; [exact Hc|].
  destruct (environ !! "API_KEYS") as [keys|].
  - rewrite or_empty_Some in Hs.
    destruct Hs as [-> | [s' ->]]; [by left | right; by exists s'].
  - rewrite or_empty_None in Hs. destruct Hs as [? | [s' ?]]; discriminate.
Qed.

(** X1: construction succeeds exactly when [API_URL] is set and non-empty
    and [API_KEYS] starts with a non-empty entry; the client then holds
    that URL and that entry, which is the whole setting or what precedes
    its first comma, and so never contains a comma. *)
Theorem API_init_succeeds_iff (environ : gmap string string) api :
  API_init environ = inr api ↔
  environ !! "API_URL" = Some (_url api) ∧ _url api ≠ ""
  ∧ _key api ≠ "" ∧ contains "," (_key api) = false
  ∧ (environ !! "API_KEYS" = Some (_key api)
     ∨ ∃ rest, environ !! "API_KEYS" = Some (_key api ++ "," ++ rest)).
Proof.
  split; [apply API_init_inr|]. unfold API_init.
  destruct api as [url key]. simpl. intros (-> & Hu & Hk & Hc & Hkeys).
  destruct url as [|c u]; [done|].
  assert (Hi : index0 (split "," (or_empty (environ !! "API_KEYS")))
               = inr key).
  { destruct Hkeys as [-> | [rest ->]]; rewrite or_empty_Some.
    - by rewrite (split_none _ _ Hc).
    - change ("," ++ rest) with (String "," rest).
      by rewrite (split_first _ _ _ Hc). }
  rewrite Hi. by destruct key.
Qed.

(** X2: construction fails in exactly two ways, and the base URL is
    looked at first: with [API_URL] unset or empty the error names
    [API_URL] whatever [API_KEYS] holds; otherwise, with the first entry
    of [API_KEYS] missing or empty, the error names [API_KEYS].  No other
    exception leaves the constructor. *)
Theorem API_init_fails_iff (environ : gmap string string) e :
  API_init environ = inl e ↔
  (e = Exception "Missing env variable: 'API_URL'"
   ∧ (environ !! "API_URL" = None ∨ environ !! "API_URL" = Some ""))
  ∨ (e = Exception "Missing or empty env variable: 'API_KEYS'"
     ∧ (∃ url, environ !! "API_URL" = Some url ∧ url ≠ "")
     ∧ first_key_empty environ).
Proof.
  unfold API_init. split.
  - destruct (environ !! "API_URL") as [[|c u]|].
    + intros [= <-]. left. eauto.
    + destruct (index0_split "," (or_empty (environ !! "API_KEYS")))
        as (piece & Hi & _ & _).
      rewrite Hi. destruct piece as [|k ks]; [|discriminate]. simpl.
      intros [= <-]. right. split; [done|].
      split; [by exists (String c u)|]. by apply first_piece_empty.
    + intros [= <-]. left. eauto.
  - intros [[-> [-> | ->]] | (-> & (url & -> & Hu) & Hf)]; [done | done |].
    destruct url as [|c u]; [done|].
    by rewrite (API_init_first_key_empty _ Hf).
Qed.

(** ** What one call does *)

Lemma round_trip_cases ok msg s r :
  (answer s r = None
   ∧ round_trip ok msg s r = (inl ConnectionError, with_sent s r))
  ∨ (∃ response, answer s r = Some response ∧ status_code response = ok
       ∧ round_trip ok msg s r = (inr response, with_sent s r))
  ∨ (∃ response, answer s r = Some response ∧ status_code response ≠ ok
       ∧ round_trip ok msg s r
         = (inl (Exception (content response)),
            with_logged (with_sent s r) msg)).
Proof.
  unfold round_trip. destruct (answer s r) as [response|]; [|by left].
  right. destruct (Z.eqb_spec (status_code response) ok) as [Heq|Hne].
  - left. by exists response.
  - right. by exists response.
Qed.

Section OneCall.

Variable json_loads : string -> result json.

(** Each call is one use of a transport helper: either the icon file could
    not be opened and nothing happened, or one request [r] for the call's
    endpoint went through [round_trip], whose state is the call's and whose
    exception, if any, is the call's. *)
Lemma call_cases c s :
  (unopenable_icon c s
   ∧ ∃ path, call json_loads c s = (inl (OSError path), s))
  ∨ (∃ r,
       req_method r = method_of c
       ∧ req_url r = _url (self s) ++ route_of c
       ∧ (method_of c = POST ∨ (req_files r = None ∧ req_json r = None))
       ∧ keyed (_key (self s)) r
       ∧ snd (call json_loads c s)
         = snd (round_trip (expected_status (method_of c))
                  (failure_msg (method_of c)) s r)
       ∧ ∀ e, fst (round_trip (expected_status (method_of c))
                     (failure_msg (method_of c)) s r) = inl e →
              fst (call json_loads c s) = inl e).
Proof.
  destruct c as [| |n|i path]; unfold call, mbind, M_bind, bind.
  - right. exists (get_request (self s) "/").
    rewrite ping_eq, _get_eq. simpl.
    split; [done|]. split; [done|]. split; [by right|]. split; [done|].
    destruct (round_trip _ _ _ _) as [[e'|response] s']; simpl;
      split; try done; by intros e [= ->].
  - right. exists (get_request (self s) "/external-providers").
    rewrite get_providers_eq, _get_eq. simpl.
    split; [done|]. split; [done|]. split; [by right|]. split; [done|].
    destruct (round_trip _ _ _ _) as [[e'|response] s']; simpl.
    + split; [done|]. by intros e [= ->].
    + destruct (json_loads _) as [e'|obj]; [by split|].
      by destruct (_to_page obj).
  - right. exists (create_request (self s) n).
    rewrite post_provider_eq, _post_json_only by done. simpl.
    split; [done|]. split; [done|]. split; [by left|]. split; [done|].
    fold (create_request (self s) n).
    destruct (round_trip _ _ _ _) as [[e'|response] s']; simpl.
    + split; [done|]. by intros e [= ->].
    + destruct (json_loads _) as [e'|obj]; [by split|].
      by destruct (Provider.load obj).
  - rewrite post_provider_icon_eq, _post_eq.
    destruct (nonzero (String.length path)) eqn:Hlen.
    + destruct (disk (world s) !! path) as [data|] eqn:Hdisk.
      * right. exists (icon_request (self s) i (mkFile path data)). simpl.
        split; [done|]. split; [done|]. split; [by left|]. split; [done|].
        unfold icon_request, json_payload. simpl.
        destruct (round_trip _ _ _ _) as [[e'|response] s']; simpl;
          split; try done; by intros e [= ->].
      * left. split; [|by exists path]. exists i, path.
        split; [done|]. split; [|done]. by apply nonzero_length_string.
    + right. exists (post_request (self s) (route_of (CallPostProviderIcon i path))
                        None None). simpl.
      split; [done|]. split; [done|]. split; [by left|]. split; [done|].
      unfold json_payload. simpl.
      destruct (round_trip _ _ _ _) as [[e'|response] s']; simpl;
        split; try done; by intros e [= ->].
Qed.

End OneCall.

Lemma round_trip_sent ok msg s r :
  sent (world (snd (round_trip ok msg s r))) = (sent (world s) ++ [r])%list.
Proof.
  destruct (round_trip_cases ok msg s r)
    as [[_ ->] | [(response & _ & _ & ->) | (response & _ & _ & ->)]]; done.
Qed.

Lemma round_trip_logged ok msg s r :
  ∃ new, logged (world (snd (round_trip ok msg s r)))
         = (logged (world s) ++ new)%list
         ∧ (length new ≤ 1)%nat.
Proof.
  destruct (round_trip_cases ok msg s r)
    as [[_ ->] | [(response & _ & _ & ->) | (response & _ & _ & ->)]]; simpl.
  - exists []. by rewrite app_nil_r; auto.
  - exists []. by rewrite app_nil_r; auto.
  - by exists [msg].
Qed.

Section CallProperties.

Variable json_loads : string -> result json.

(** X3: every call issues at most one request, and to its own endpoint.
    Either it is an icon upload whose file cannot be opened, and then it
    raises with the state untouched; or it issues exactly one request,
    with the method of the call and the base URL followed by the route of
    the call, a [GET] carrying neither file nor JSON body. *)
Theorem call_issues_one_request c s :
  (unopenable_icon c s
   ∧ issued (call json_loads c) s = []
   ∧ snd (call json_loads c s) = s
   ∧ ∃ path, fst (call json_loads c s) = inl (OSError path))
  ∨ (∃ r, issued (call json_loads c) s = [r]
          ∧ req_method r = method_of c
          ∧ req_url r = _url (self s) ++ route_of c
          ∧ (method_of c = POST
             ∨ (req_files r = None ∧ req_json r = None))).
Proof.
  destruct (call_cases json_loads c s)
    as [[Hu [path Hc]] | (r & Hm & Hurl & Hp & _ & Hs & _)].
  - left. unfold issued. rewrite Hc. simpl. rewrite drop_all. eauto.
  - right. exists r. unfold issued. rewrite Hs, round_trip_issued. done.
Qed.

(** X4: a sequence of calls only appends to the requests sent and to the
    error log, and adds at most one request and at most one log message
    per call: nothing is sent twice, nothing is retried. *)
Theorem calls_append_only cs s :
  sent (world s) `prefix_of` sent (world (calls json_loads cs s))
  ∧ logged (world s) `prefix_of` logged (world (calls json_loads cs s))
  ∧ (length (sent (world (calls json_loads cs s)))
     ≤ length (sent (world s)) + length cs)%nat
  ∧ (length (logged (world (calls json_loads cs s)))
     ≤ length (logged (world s)) + length cs)%nat.
Proof.
  revert s. induction cs as [|c cs IH]; intros s; simpl.
  - repeat split; try done; lia.
  - destruct (IH (snd (call json_loads c s))) as (Hs & Hl & Hns & Hnl).
    assert (Hstep :
      (∃ n1, sent (world (snd (call json_loads c s)))
             = (sent (world s) ++ n1)%list ∧ (length n1 ≤ 1)%nat)
      ∧ (∃ n2, logged (world (snd (call json_loads c s)))
               = (logged (world s) ++ n2)%list ∧ (length n2 ≤ 1)%nat)).
    { destruct (call_cases json_loads c s)
        as [[_ [path ->]] | (r & _ & _ & _ & _ & -> & _)].
      - simpl. split; exists []; by rewrite app_nil_r; auto.
      - split.
        + exists [r]. by rewrite round_trip_sent.
        + apply round_trip_logged. }
    destruct Hstep as ((n1 & Hn1 & Hl1) & (n2 & Hn2 & Hl2)).
    rewrite Hn1 in Hs, Hns. rewrite Hn2 in Hl, Hnl.
    rewrite length_app in Hns, Hnl.
    split; [by eapply prefix_app_l|]. split; [by eapply prefix_app_l|].
    split; lia.
Qed.

End CallProperties.

Section Outcomes.

Variable json_loads : string -> result json.

(** X5: a call writes to the error log exactly when its request was
    answered with a status other than the expected one (200 for a [GET],
    201 for a [POST]): then it logs the one fixed message of its method,
    and raises [Exception] with the body; in every other case (the file
    could not be opened, no answer came, or the status was right) it logs
    nothing. *)
Theorem call_logs_on_bad_status c s :
  (logs (call json_loads c) s = [failure_msg (method_of c)]
   ∧ ∃ r response,
       issued (call json_loads c) s = [r]
       ∧ answer s r = Some response
       ∧ status_code response ≠ expected_status (method_of c)
       ∧ fst (call json_loads c s) = inl (Exception (content response)))
  ∨ (logs (call json_loads c) s = []
     ∧ (unopenable_icon c s
        ∨ ∃ r, issued (call json_loads c) s = [r]
               ∧ (answer s r = None
                  ∨ ∃ response,
                      answer s r = Some response
                      ∧ status_code response
                        = expected_status (method_of c)))).
Proof.
  unfold logs, issued.
  destruct (call_cases json_loads c s)
    as [[Hu [path Hc]] | (r & _ & _ & _ & _ & Hs & He)].
  - right. rewrite Hc. simpl. rewrite drop_all. eauto.
  - rewrite Hs, round_trip_issued.
    destruct (round_trip_cases (expected_status (method_of c))
                (failure_msg (method_of c)) s r)
      as [[Ha Hr] | [(response & Ha & Hst & Hr) | (response & Ha & Hst & Hr)]];
      rewrite Hr in *; simpl in *.
    + right. rewrite drop_all. split; [done|]. right. exists r. eauto.
    + right. rewrite drop_all. split; [done|]. right. exists r.
      split; [done|]. right. by exists response.
    + left. rewrite drop_old. split; [done|]. exists r, response.
      repeat split; try done. by apply He.
Qed.

(** X8: when no answer comes to the request of a call, the call raises
    the error of the HTTP library as it is, and logs nothing. *)
Theorem call_without_answer c s r :
  issued (call json_loads c) s = [r] → answer s r = None →
  fst (call json_loads c s) = inl ConnectionError
  ∧ logs (call json_loads c) s = [].
Proof.
  unfold logs, issued.
  destruct (call_cases json_loads c s)
    as [[Hu [path Hc]] | (r' & _ & _ & _ & _ & Hs & He)].
  - rewrite Hc. simpl. rewrite drop_all. discriminate.
  - rewrite Hs, round_trip_issued. intros [= ->] Ha.
    destruct (round_trip_cases (expected_status (method_of c))
                (failure_msg (method_of c)) s r)
      as [[_ Hr] | [(response & Ha' & _) | (response & Ha' & _)]];
      [|congruence|congruence].
    rewrite Hr in *. simpl in *. rewrite drop_all. split; [|done].
    by apply He.
Qed.

End Outcomes.

Lemma call_without_answer_witness :
  fst (call demo_loads CallGetProviders silent_state) = inl ConnectionError
  ∧ logs (call demo_loads CallGetProviders) silent_state = [].
Proof.
  apply (call_without_answer demo_loads CallGetProviders silent_state
           (get_request (mkAPI "http://api" "k1") "/external-providers"));
    reflexivity.
Defined.

(** X6: [ping] returns [True] exactly when the [GET] of the root path is
    answered with status 200; it returns nothing else. *)
Theorem ping_true_iff s :
  (fst (ping s) = inr true ↔
   ∃ response, answer s (get_request (self s) "/") = Some response
               ∧ status_code response = 200)
  ∧ fst (ping s) ≠ inr false.
Proof.
  rewrite ping_eq, _get_eq.
  destruct (round_trip_cases 200 "GETting API failed: " s
              (get_request (self s) "/"))
    as [[Ha ->] | [(response & Ha & Hst & ->) | (response & Ha & Hst & ->)]];
    simpl.
  - split; [|discriminate].
    split; [discriminate | intros (response & ? & _); congruence].
  - unfold Response_bool. rewrite Hst. simpl.
    split; [|discriminate]. split; [by eauto | done].
  - split; [|discriminate].
    split; [discriminate | intros (response' & ? & ?); congruence].
Qed.

Lemma _post_cases route json_arg path s :
  (path ≠ "" ∧ disk (world s) !! path = None
   ∧ _post route json_arg path s = (inl (OSError path), s))
  ∨ ∃ r, _post route json_arg path s
         = round_trip 201 "POSTting API failed: " s r.
Proof.
  rewrite _post_eq. destruct (nonzero (String.length path)) eqn:Hlen.
  - destruct (disk (world s) !! path) as [data|]; [right; eauto|].
    left. split; [by apply nonzero_length_string | done].
  - right. eauto.
Qed.

(** X7: the icon upload returns (with [None]) exactly when its request
    was issued and answered with status 201; the body of the answer plays
    no part. *)
Theorem post_provider_icon_returns_iff provider_id icon_path s :
  fst (post_provider_icon provider_id icon_path s) = inr tt ↔
  ∃ r response,
    issued (post_provider_icon provider_id icon_path) s = [r]
    ∧ answer s r = Some response ∧ status_code response = 201.
Proof.
  unfold issued. rewrite post_provider_icon_eq.
  destruct (_post_cases
              ("/external-providers/" ++ str_of_int provider_id ++ "/icon")
              [] icon_path s) as [(_ & _ & ->) | [r ->]].
  - simpl. rewrite drop_all. split; [discriminate|].
    intros (r & response & [=] & _).
  - destruct (round_trip_cases 201 "POSTting API failed: " s r)
      as [[Ha ->] | [(response & Ha & Hst & ->) | (response & Ha & Hst & ->)]];
      simpl; rewrite drop_old.
    + split; [discriminate|].
      intros (r' & response & [= <-] & ? & _). congruence.
    + split; [|done]. intros _. by exists r, response.
    + split; [discriminate|].
      intros (r' & response' & [= <-] & ? & ?). congruence.
Qed.

(** ** Decoding the answers *)

Lemma load_each_iff {T : Type} `{Schema T} (l : list json) (xs : list T) :
  load_each l = inr xs ↔ Forall2 (fun obj x => schema_load obj = inr x) l xs.
Proof.
  revert xs. induction l as [|obj l IH]; intros xs; simpl.
  - split; [intros [= <-]; constructor | by inversion 1].
  - destruct (schema_load obj) as [e|x] eqn:Hobj.
    + split; [discriminate|]. inversion 1; congruence.
    + destruct (load_each l) as [e|xs'] eqn:Hl.
      * split; [discriminate|]. inversion 1 as [|? x' ? xs'' Hx Hxs]; subst.
        apply IH in Hxs. discriminate.
      * split.
        -- intros [= <-]. constructor; [done|]. by apply IH.
        -- inversion 1 as [|? x' ? xs'' Hx Hxs]; subst.
           apply IH in Hxs. congruence.
Qed.

Lemma to_page_iff_load {T : Type} `{Schema T} (obj : json) (page : Page T) :
  _to_page obj = inr page ↔
  ∃ d l, obj = JDict d ∧ json_get d "items" = Some (JList l)
         ∧ Forall2 (fun o x => schema_load o = inr x) l (items page).
Proof.
  unfold _to_page, subscript, load_many. split.
  - destruct obj as [| | | | |d]; try discriminate.
    destruct (json_get d "items") as [[| | | |l|]|] eqn:Hd;
      try discriminate.
    destruct (load_each l) as [e|xs] eqn:Hl; [discriminate|].
    intros [= <-]. exists d, l. simpl. split; [done|]. split; [done|].
    by apply load_each_iff.
  - intros (d & l & -> & -> & Hall). apply load_each_iff in Hall.
    rewrite Hall. by destruct page.
Qed.

(** X11: for any dataclass, [_to_page] builds a page exactly when the
    value is an object whose [items] is an array every element of which
    loads; the items of the page are then the loaded elements, one for
    one and in the order of the array; and a page is as long as its
    array.  There is no partial page. *)
Theorem to_page_iff {T : Type} `{Schema T} (obj : json) (page : Page T) :
  _to_page obj = inr page ↔
  ∃ d l, obj = JDict d ∧ json_get d "items" = Some (JList l)
         ∧ length (items page) = length l
         ∧ Forall2 (fun o x => schema_load o = inr x) l (items page).
Proof.
  rewrite to_page_iff_load. split.
  - intros (d & l & Ho & Hi & Hall). exists d, l.
    repeat split; try done. symmetry. by eapply Forall2_length.
  - intros (d & l & Ho & Hi & _ & Hall). by exists d, l.
Qed.

Section BadBodies.

Variable json_loads : string -> result json.

(** X9: when [/external-providers] is answered with status 200, the one
    request has been issued and nothing is logged, and a body that cannot
    be used makes [get_providers] raise: the decoder's own error when the
    body is not JSON, [KeyError] for [items] when the object has no such
    key, and [TypeError] when the JSON value is not an object. *)
Theorem get_providers_bad_body s response :
  answer s (get_request (self s) "/external-providers") = Some response →
  status_code response = 200 →
  issued (get_providers json_loads) s
  = [get_request (self s) "/external-providers"]
  ∧ logs (get_providers json_loads) s = []
  ∧ (∀ e, json_loads (content response) = inl e →
          fst (get_providers json_loads s) = inl e)
  ∧ (∀ d, json_loads (content response) = inr (JDict d) →
          json_get d "items" = None →
          fst (get_providers json_loads s) = inl (KeyError "items"))
  ∧ (∀ obj, json_loads (content response) = inr obj →
            (∀ d, obj ≠ JDict d) →
            fst (get_providers json_loads s) = inl TypeError).
Proof.
  intros Ha Hst. unfold issued, logs. rewrite get_providers_eq, _get_eq.
  unfold round_trip. rewrite Ha, Hst. simpl.
  split; [|split; [|split; [|split]]].
  - destruct (json_loads _) as [e|obj]; simpl; [apply drop_old|].
    destruct (_to_page obj); simpl; apply drop_old.
  - destruct (json_loads _) as [e|obj]; simpl; [apply drop_all|].
    destruct (_to_page obj); simpl; apply drop_all.
  - by intros e ->.
  - intros d -> Hd. unfold _to_page, subscript. by rewrite Hd.
  - intros obj -> Hobj. unfold _to_page, subscript.
    destruct obj as [| | | | |d]; try done. by destruct (Hobj d).
Qed.

(** X10: when the [POST] of [post_provider] is answered with status 201
    and a body the decoder rejects, the call raises the decoder's error
    although its request has gone out, and nothing is logged. *)
Theorem post_provider_undecodable provider_name s response e :
  answer s (create_request (self s) provider_name) = Some response →
  status_code response = 201 →
  json_loads (content response) = inl e →
  fst (post_provider json_loads provider_name s) = inl e
  ∧ issued (post_provider json_loads provider_name) s
    = [create_request (self s) provider_name]
  ∧ logs (post_provider json_loads provider_name) s = [].
Proof.
  intros Ha Hst He. unfold issued, logs.
  rewrite post_provider_eq, _post_json_only by done.
  fold (create_request (self s) provider_name).
  unfold round_trip. rewrite Ha, Hst. simpl. rewrite He. simpl.
  split; [done|]. split; [apply drop_old | apply drop_all].
Qed.

End BadBodies.

Lemma get_providers_bad_body_witness :
  issued (get_providers demo_loads) (const_state 200 "oops")
  = [get_request (self (const_state 200 "oops")) "/external-providers"]
  ∧ logs (get_providers demo_loads) (const_state 200 "oops") = []
  ∧ (∀ e, demo_loads "oops" = inl e →
          fst (get_providers demo_loads (const_state 200 "oops")) = inl e)
  ∧ (∀ d, demo_loads "oops" = inr (JDict d) →
          json_get d "items" = None →
          fst (get_providers demo_loads (const_state 200 "oops"))
          = inl (KeyError "items"))
  ∧ (∀ obj, demo_loads "oops" = inr obj →
            (∀ d, obj ≠ JDict d) →
            fst (get_providers demo_loads (const_state 200 "oops"))
            = inl TypeError).
Proof.
  apply (get_providers_bad_body demo_loads (const_state 200 "oops")
           (mkResponse 200 "oops")); reflexivity.
Defined.

Lemma post_provider_undecodable_witness :
  fst (post_provider demo_loads "X" (const_state 201 "oops"))
  = inl JSONDecodeError
  ∧ issued (post_provider demo_loads "X") (const_state 201 "oops")
    = [create_request (self (const_state 201 "oops")) "X"]
  ∧ logs (post_provider demo_loads "X") (const_state 201 "oops") = [].
Proof.
  apply (post_provider_undecodable demo_loads "X" (const_state 201 "oops")
           (mkResponse 201 "oops") JSONDecodeError); reflexivity.
Defined.

Example get_providers_no_items :
  fst (get_providers (fun _ => inr (JDict [("total", JInt 0)]))
         (const_state 200 "body"))
  = inl (KeyError "items").
Proof. reflexivity. Qed.

Example get_providers_empty_page :
  fst (get_providers (fun _ => inr (JDict [("items", JList [])]))
         (const_state 200 "body"))
  = inr (mkPage []).
Proof. reflexivity. Qed.

(** ** A whole session *)

Section Session.

Variable json_loads : string -> result json.

Lemma call_self c s : self (snd (call json_loads c s)) = self s.
Proof. by destruct (call_keyed json_loads c s) as [-> _]. Qed.

Lemma calls_requests cs s :
  ∃ new,
    sent (world (calls json_loads cs s)) = (sent (world s) ++ new)%list
    ∧ Forall (fun r =>
                keyed (_key (self s)) r
                ∧ ∃ c, c ∈ cs ∧ req_method r = method_of c
                       ∧ req_url r = _url (self s) ++ route_of c) new.
Proof.
  revert s. induction cs as [|c cs IH]; intros s; simpl.
  - exists []. by rewrite app_nil_r.
  - destruct (IH (snd (call json_loads c s))) as (new & Hnew & Hall).
    rewrite call_self in Hall.
    assert (Hweak : Forall (fun r =>
              keyed (_key (self s)) r
              ∧ ∃ c', c' ∈ c :: cs ∧ req_method r = method_of c'
                      ∧ req_url r = _url (self s) ++ route_of c') new).
    { eapply Forall_impl; [exact Hall|].
      intros r (Hk & c' & Hin & Hm & Hu). split; [done|].
      exists c'. split; [by apply list_elem_of_further | done]. }
    destruct (call_cases json_loads c s)
      as [[_ [path Hc]] | (r & Hm & Hurl & _ & Hk & Hs & _)].
    + rewrite Hc in Hnew |- *. simpl in *. by exists new.
    + rewrite Hs in Hnew |- *. rewrite round_trip_sent in Hnew.
      exists (r :: new).
      rewrite Hnew, <- app_assoc. split; [done|].
      constructor; [|done]. split; [done|].
      exists c. split; [apply list_elem_of_here | done].
Qed.

(** X12: in a session (a client built from the environment, then any
    sequence of calls) every request sent goes to the configured base URL
    followed by the route of one of the calls made, with that call's
    method, and carries as [x-api-key] the first entry of [API_KEYS], a
    non-empty string without a comma: never the whole list, never a later
    key. *)
Theorem session_requests (environ : gmap string string) api w cs r :
  API_init environ = inr api →
  r ∈ drop (length (sent w))
        (sent (world (calls json_loads cs (mkState api w)))) →
  ∃ url key c,
    environ !! "API_URL" = Some url
    ∧ (environ !! "API_KEYS" = Some key
       ∨ ∃ rest, environ !! "API_KEYS" = Some (key ++ "," ++ rest))
    ∧ key ≠ "" ∧ contains "," key = false
    ∧ c ∈ cs ∧ req_method r = method_of c
    ∧ req_url r = url ++ route_of c
    ∧ req_headers r = [("x-api-key", key)].
Proof.
  intros Hinit Hr.
  destruct (API_init_inr _ _ Hinit) as (Hurl & _ & Hk & Hc & Hkeys).
  destruct (calls_requests cs (mkState api w)) as (new & Hnew & Hall).
  simpl in Hnew. rewrite Hnew, drop_old in Hr.
  rewrite Forall_forall in Hall.
  destruct (Hall r Hr) as (Hkeyed & c & Hin & Hm & Hu).
  exists (_url api), (_key api), c.
  split; [exact Hurl|]. split; [exact Hkeys|]. split; [exact Hk|].
  split; [exact Hc|]. split; [exact Hin|]. split; [exact Hm|].
  split; [exact Hu | exact Hkeyed].
Qed.

End Session.

Lemma session_requests_witness :
  ∃ url key c,
    (<["API_KEYS" := "k1,k2"]> {[ "API_URL" := "http://api" ]} : gmap string string)
      !! "API_URL" = Some url
    ∧ ((<["API_KEYS" := "k1,k2"]> {[ "API_URL" := "http://api" ]}
          : gmap string string) !! "API_KEYS" = Some key
       ∨ ∃ rest,
           (<["API_KEYS" := "k1,k2"]> {[ "API_URL" := "http://api" ]}
              : gmap string string) !! "API_KEYS"
           = Some (key ++ "," ++ rest))
    ∧ key ≠ "" ∧ contains "," key = false
    ∧ c ∈ [CallPing; CallPostProvider "X"]
    ∧ req_method (create_request (mkAPI "http://api" "k1") "X") = method_of c
    ∧ req_url (create_request (mkAPI "http://api" "k1") "X")
      = url ++ route_of c
    ∧ req_headers (create_request (mkAPI "http://api" "k1") "X")
      = [("x-api-key", key)].
Proof.
  apply (session_requests demo_loads
           (<["API_KEYS" := "k1,k2"]> {[ "API_URL" := "http://api" ]})
           (mkAPI "http://api" "k1") demo_world
           [CallPing; CallPostProvider "X"]
           (create_request (mkAPI "http://api" "k1") "X")).
  - vm_compute. reflexivity.
  - apply list_elem_of_further, list_elem_of_here.
Defined.

(** ** When a call returns *)

Section Returns.

Variable json_loads : string -> result json.

(** X13: a call returns a value only after its one request was answered
    with the status its method expects, and then nothing was logged;
    every other course of events ends in an exception. *)
Theorem call_returns_after_expected_status c s v :
  fst (call json_loads c s) = inr v →
  ∃ r response,
    issued (call json_loads c) s = [r]
    ∧ answer s r = Some response
    ∧ status_code response = expected_status (method_of c)
    ∧ logs (call json_loads c) s = [].
Proof.
  intros Hv. unfold issued, logs.
  destruct (call_cases json_loads c s)
    as [[_ [path Hc]] | (r & _ & _ & _ & _ & Hs & He)].
  - rewrite Hc in Hv. discriminate.
  - rewrite Hs, round_trip_issued.
    destruct (round_trip_cases (expected_status (method_of c))
                (failure_msg (method_of c)) s r)
      as [[Ha Hr] | [(response & Ha & Hst & Hr) | (response & Ha & Hst & Hr)]];
      rewrite Hr in *; simpl in *.
    + rewrite (He _ eq_refl) in Hv. discriminate.
    + exists r, response. rewrite drop_all. done.
    + rewrite (He _ eq_refl) in Hv. discriminate.
Qed.

(** X14: [get_providers] returns a page exactly when [/external-providers]
    is answered with status 200 and a body that decodes to an object whose
    [items] is an array of values that each load as a provider; the page
    holds these providers in the order of the array. *)
Theorem get_providers_returns_iff s page :
  fst (get_providers json_loads s) = inr page ↔
  ∃ response d l,
    answer s (get_request (self s) "/external-providers") = Some response
    ∧ status_code response = 200
    ∧ json_loads (content response) = inr (JDict d)
    ∧ json_get d "items" = Some (JList l)
    ∧ Forall2 (fun obj p => Provider.load obj = inr p) l (items page).
Proof.
  rewrite get_providers_eq, _get_eq.
  destruct (round_trip_cases 200 "GETting API failed: " s
              (get_request (self s) "/external-providers"))
    as [[Ha ->] | [(response & Ha & Hst & ->) | (response & Ha & Hst & ->)]];
    simpl.
  - split; [discriminate|]. intros (response & d & l & ? & _). congruence.
  - destruct (json_loads (content response)) as [e|obj] eqn:Hj; simpl.
    + split; [discriminate|].
      intros (response' & d & l & Ha' & _ & Hj' & _). congruence.
    + destruct (_to_page obj) as [e|page'] eqn:Hp; simpl.
      * split; [discriminate|].
        intros (response' & d & l & Ha' & _ & Hj' & Hi & Hall).
        assert (response' = response) as -> by congruence.
        assert (obj = JDict d) as -> by congruence.
        assert (_to_page (JDict d) = inr page) as Hp'
          by (apply to_page_iff_load; eauto).
        congruence.
      * split.
        -- intros [= <-]. apply to_page_iff_load in Hp as (d & l & -> & Hi & Hall).
           exists response, d, l. done.
        -- intros (response' & d & l & Ha' & _ & Hj' & Hi & Hall).
           assert (response' = response) as -> by congruence.
           assert (obj = JDict d) as -> by congruence.
           assert (_to_page (JDict d) = inr page) as Hp'
             by (apply to_page_iff_load; eauto).
           congruence.
  - split; [discriminate|].
    intros (response' & d & l & Ha' & Hst' & _). congruence.
Qed.

(** X15: [post_provider] returns a provider exactly when its [POST] is
    answered with status 201 and a body that decodes to a value loading
    as that provider. *)
Theorem post_provider_returns_iff provider_name s p :
  fst (post_provider json_loads provider_name s) = inr p ↔
  ∃ response obj,
    answer s (create_request (self s) provider_name) = Some response
    ∧ status_code response = 201
    ∧ json_loads (content response) = inr obj
    ∧ Provider.load obj = inr p.
Proof.
  rewrite post_provider_eq, _post_json_only by done.
  fold (create_request (self s) provider_name).
  destruct (round_trip_cases 201 "POSTting API failed: " s
              (create_request (self s) provider_name))
    as [[Ha ->] | [(response & Ha & Hst & ->) | (response & Ha & Hst & ->)]];
    simpl.
  - split; [discriminate|]. intros (response & obj & ? & _). congruence.
  - destruct (json_loads (content response)) as [e|obj] eqn:Hj; simpl.
    + split; [discriminate|].
      intros (response' & obj & Ha' & _ & Hj' & _). congruence.
    + destruct (Provider.load obj) as [e|p'] eqn:Hp; simpl.
      * split; [discriminate|].
        intros (response' & obj' & Ha' & _ & Hj' & Hp'). congruence.
      * split.
        -- intros [= <-]. by exists response, obj.
        -- intros (response' & obj' & Ha' & _ & Hj' & Hp'). congruence.
  - split; [discriminate|].
    intros (response' & obj & Ha' & Hst' & _). congruence.
Qed.

End Returns.

Lemma call_returns_after_expected_status_witness :
  ∃ r response,
    issued (call demo_loads (CallPostProvider "X")) demo_state = [r]
    ∧ answer demo_state r = Some response
    ∧ status_code response = expected_status (method_of (CallPostProvider "X"))
    ∧ logs (call demo_loads (CallPostProvider "X")) demo_state = [].
Proof.
  apply (call_returns_after_expected_status demo_loads (CallPostProvider "X")
           demo_state (VProvider (Provider.mk 5 "X"))).
  reflexivity.
Defined.

(** ** Routes *)

Lemma append_length (s1 s2 : string) :
  String.length (s1 ++ s2) = (String.length s1 + String.length s2)%nat.
Proof. induction s1 as [|c s1 IH]; simpl; [done | by rewrite IH]. Qed.

Lemma append_inj_l (p s1 s2 : string) : p ++ s1 = p ++ s2 → s1 = s2.
Proof. induction p as [|c p IH]; simpl; [done|]. intros [= H]. by apply IH. Qed.

Lemma append_inj_r (s1 s2 t : string) : s1 ++ t = s2 ++ t → s1 = s2.
Proof.
  revert s2. induction s1 as [|c s1 IH]; intros [|c2 s2]; simpl; intros H.
  - done.
  - apply (f_equal String.length) in H.
    simpl in H. rewrite ?append_length in H. simpl in H. lia.
  - apply (f_equal String.length) in H.
    simpl in H. rewrite ?append_length in H. simpl in H. lia.
  - injection H as -> H. by rewrite (IH _ H).
Qed.

Lemma str_of_int_inj a b : str_of_int a = str_of_int b → a = b.
Proof.
  unfold str_of_int. intros H.
  assert (Hnn : ∀ z, Z.to_int z ≠ Decimal.Pos Decimal.Nil
                     ∧ Z.to_int z ≠ Decimal.Neg Decimal.Nil).
  { intros [|p|p]; simpl; split; try discriminate;
      intros [= Hp]; by apply Unsigned.to_uint_nonnil in Hp. }
  apply DecimalZ.to_int_inj.
  assert (Some (Z.to_int a) = Some (Z.to_int b)) as [= ->]; [|done].
  rewrite <- (NilZero.isi (Z.to_int a)), <- (NilZero.isi (Z.to_int b));
    try apply Hnn.
  by rewrite H.
Qed.

(** X16: the icon uploads of one client for two different providers go to
    two different URLs: the provider id can be read back from the route. *)
Theorem icon_route_injective api id1 id2 f1 f2 :
  req_url (icon_request api id1 f1) = req_url (icon_request api id2 f2) →
  id1 = id2.
Proof.
  unfold icon_request, post_request. cbn [req_url]. intros H.
  do 2 apply append_inj_l in H.
  apply append_inj_r in H. by apply str_of_int_inj.
Qed.

Lemma icon_route_injective_witness : 5 = 5.
Proof.
  apply (icon_route_injective (mkAPI "http://api" "k1") 5 5
           (mkFile "a.png" "A") (mkFile "b.png" "B")).
  reflexivity.
Defined.
